(** * quantum_loop_enforcer: a shallow embedding of the rule-checking layer

    The development follows [ex_00_quantum_loop_enforcer.py]: the three
    decorators ([reversible], [no_information_deletion],
    [no_control_flow_divergence]), the class [QuantumSafeFunction] and the
    class [QuantumLoop].  Python objects that the code mutates or compares by
    identity (the [seen_outputs] dictionary of each [reversible] closure, the
    gate objects made by [to_gate]) live in an explicit store; every callable
    is a store transformer that either returns a value or raises. *)

From stdpp Require Import gmap strings list pretty.
From Stdlib Require Import ZArith Permutation.

Open Scope string_scope.
Open Scope Z_scope.

(** ** Values and exceptions *)

(** The Python objects that flow through the checked functions.  Only
    [None], integers and strings are modelled: on these [==] is structural
    equality and every object is hashable, which is what [seen_outputs]
    needs of its keys. *)
Inductive value :=
  | VNone
  | VInt (n : Z)
  | VStr (s : string).

#[global] Instance value_eq_dec : EqDecision value.
Proof. solve_decision. Defined.

#[global] Instance value_inhabited : Inhabited value := populate VNone.

Definition value_code (v : value) : unit + (Z + string) :=
  match v with
  | VNone => inl ()
  | VInt n => inr (inl n)
  | VStr s => inr (inr s)
  end.

Definition value_decode (c : unit + (Z + string)) : value :=
  match c with
  | inl _ => VNone
  | inr (inl n) => VInt n
  | inr (inr s) => VStr s
  end.

#[global] Instance value_countable : Countable value.
Proof. apply (inj_countable' value_code value_decode). by intros []. Defined.

(** [str(v)], as an f-string placeholder renders it. *)
Definition py_str (v : value) : string :=
  match v with
  | VNone => "None"
  | VInt n => pretty n
  | VStr s => s
  end.

(** The exception classes of the module, [ValueError] raised by
    [QuantumLoop.__init__], and the interpreter's and Qiskit's own errors
    (their messages are not fixed by this module and are left out). *)
Inductive exn :=
  | IrreversibleFunctionError (msg : string)
  | InformationDeletionError (msg : string)
  | ControlFlowDivergenceError (msg : string)
  | ValueError (msg : string)
  | TypeError
  | NameError
  | UnboundLocalError
  | CircuitError.

Inductive result (A : Type) :=
  | Ok (a : A)
  | Raise (e : exn).
Arguments Ok {A} a.
Arguments Raise {A} e.

(** ** The store *)

(** Qiskit side, as far as this module uses it: an operation placed in a
    circuit is the built-in CNOT or a reference to a gate object; a gate
    object has a name, a width and a defining instruction list. *)
Inductive operation :=
  | OpCX
  | OpGate (ref : nat).

#[global] Instance operation_eq_dec : EqDecision operation.
Proof. solve_decision. Defined.

Definition instruction : Type := operation * list nat.

Record Gate := {
  gate_name : option string;
  gate_num_qubits : nat;
  gate_definition : list instruction
}.

Record QuantumCircuit := {
  qc_num_qubits : nat;
  qc_name : option string;
  qc_data : list instruction
}.

(** One [seen_outputs] dictionary per [reversible] closure, found by its
    reference, and the gate objects created so far, a reference being an
    index. *)
Record store := {
  ledgers : gmap nat (gmap value value);
  gates : list Gate
}.

Definition empty_store : store := {| ledgers := ∅; gates := [] |}.

(** ** Computations: state passing with exceptions *)

Definition M (A : Type) : Type := store → result A * store.

#[global] Instance M_ret : MRet M := λ A a s, (Ok a, s).

#[global] Instance M_bind : MBind M := λ A B k c s,
  match c s with
  | (Ok a, s') => k a s'
  | (Raise e, s') => (Raise e, s')
  end.

Definition raise {A : Type} (e : exn) : M A := λ s, (Raise e, s).

Definition lift {A : Type} (r : result A) : M A := λ s, (r, s).

(** Pure code that can raise uses the same notation. *)
#[global] Instance result_ret : MRet result := λ A a, Ok a.

#[global] Instance result_bind : MBind result := λ A B k r,
  match r with
  | Ok a => k a
  | Raise e => Raise e
  end.

Definition ledger_at (l : nat) (s : store) : gmap value value :=
  default ∅ (ledgers s !! l).

Definition set_ledger (l : nat) (d : gmap value value) (s : store) : store :=
  {| ledgers := <[l := d]> (ledgers s); gates := gates s |}.

(** The reference a dictionary created in store [s] gets: one that no
    live dictionary has. *)
Definition fresh_ledger (s : store) : nat := fresh (dom (ledgers s)).

(** [seen_outputs = {}] *)
Definition new_ledger : M nat := λ s,
  let l := fresh_ledger s in (Ok l, set_ledger l ∅ s).

Definition read_ledger (l : nat) : M (gmap value value) := λ s,
  (Ok (ledger_at l s), s).

Definition write_ledger (l : nat) (d : gmap value value) : M unit := λ s,
  (Ok (), set_ledger l d s).

Definition new_gate (g : Gate) : M nat := λ s,
  (Ok (length (gates s)),
   {| ledgers := ledgers s; gates := gates s ++ [g] |}).

(** ** Function objects *)

(** The arguments of one call: the positional ones in order, then the
    keyword ones. *)
Record call_args := {
  positional : list value;
  keywords : list (string * value)
}.

(** [f(x)] *)
Definition call1 (x : value) : call_args :=
  {| positional := [x]; keywords := [] |}.

(** A function object: [__name__], [__code__.co_names] and what a call
    does. *)
Record pyfunc := {
  fn_name : string;
  fn_co_names : list string;
  fn_call : call_args → M value
}.

(** Binding the arguments of a call to the single parameter of a unary
    [def]: one positional argument, or one keyword argument of that name. *)
Definition bind_param (param : string) (a : call_args) : result value :=
  match positional a, keywords a with
  | [x], [] => Ok x
  | [], [(k, x)] => if decide (k = param) then Ok x else Raise TypeError
  | _, _ => Raise TypeError
  end.

(** [def wrapper(x)] *)
Definition bind_x : call_args → result value := bind_param "x".

(** ** Decorators enforcing quantum rules *)

Definition irreversible_message (name : string) (x' x y : value) : string :=
  "Function " +:+ name +:+ " is not reversible: " +:+
  py_str x' +:+ " and " +:+ py_str x +:+ " map to " +:+ py_str y.

(** The inner [wrapper] of [reversible], closed over [func] and the
    reference to its [seen_outputs]. *)
Definition reversible_wrapper (func : pyfunc) (seen_outputs : nat)
    (a : call_args) : M value :=
  x ← lift (bind_x a);
  y ← fn_call func (call1 x);
  seen ← read_ledger seen_outputs;
  if bool_decide (is_Some (seen !! y)) && bool_decide (seen !!! y ≠ x)
  then raise (IrreversibleFunctionError
                (irreversible_message (fn_name func) (seen !!! y) x y))
  else
    _ ← write_ledger seen_outputs (<[y := x]> seen);
    mret y.

(** The global and attribute names the body of that [wrapper] refers to
    ([func] and [seen_outputs] are free variables, [x] and [y] locals). *)
Definition reversible_wrapper_co_names : list string :=
  ["IrreversibleFunctionError"; "__name__"].

(** [functools.wraps] copies [__name__]; the code object is the wrapper's
    own. *)
Definition reversible_closure (func : pyfunc) (seen_outputs : nat) : pyfunc :=
  {| fn_name := fn_name func;
     fn_co_names := reversible_wrapper_co_names;
     fn_call := reversible_wrapper func seen_outputs |}.

Definition reversible (func : pyfunc) : M pyfunc :=
  seen_outputs ← new_ledger;
  mret (reversible_closure func seen_outputs).

Definition deletion_message (name : string) : string :=
  "Function " +:+ name +:+ " discards information (returns None)".

Definition no_information_deletion_wrapper (func : pyfunc)
    (a : call_args) : M value :=
  result ← fn_call func a;
  if decide (result = VNone)
  then raise (InformationDeletionError (deletion_message (fn_name func)))
  else mret result.

Definition no_information_deletion_wrapper_co_names : list string :=
  ["InformationDeletionError"; "__name__"].

Definition no_information_deletion (func : pyfunc) : pyfunc :=
  {| fn_name := fn_name func;
     fn_co_names := no_information_deletion_wrapper_co_names;
     fn_call := no_information_deletion_wrapper func |}.

Definition forbidden : list string := ["if"; "while"; "break"; "continue"].

Definition divergence_message (fname name : string) : string :=
  "Function " +:+ fname +:+ " contains forbidden control flow: " +:+ name.

(** The [for name in forbidden] loop.  [forbidden] is a set of strings, so
    the order in which Python visits its members is not fixed by the source;
    it is the parameter [order]. *)
Fixpoint check_names (order : list string) (func : pyfunc) : result pyfunc :=
  match order with
  | [] => Ok func
  | name :: rest =>
      if bool_decide (name ∈ fn_co_names func)
      then Raise (ControlFlowDivergenceError
                    (divergence_message (fn_name func) name))
      else check_names rest func
  end.

Definition no_control_flow_divergence (order : list string)
    (func : pyfunc) : result pyfunc :=
  check_names order func.

(** ** Quantum-safe classical function abstraction *)

Record QuantumSafeFunction := {
  func : pyfunc
}.

(** [QuantumSafeFunction.__init__] *)
Definition QuantumSafeFunction_init (f : pyfunc) : QuantumSafeFunction :=
  {| func := f |}.

Definition evaluate (self : QuantumSafeFunction) (x : value) : M value :=
  fn_call (func self) (call1 x).

(** [QuantumCircuit(n, name=name)], and [QuantumCircuit(n)] whose generated
    name is not modelled. *)
Definition QuantumCircuit_init (n : nat) (name : option string)
    : QuantumCircuit :=
  {| qc_num_qubits := n; qc_name := name; qc_data := [] |}.

Definition operation_width (op : operation) (s : store) : option nat :=
  match op with
  | OpCX => Some 2%nat
  | OpGate ref => gate_num_qubits <$> gates s !! ref
  end.

Definition qargs_ok (width n : nat) (qargs : list nat) : bool :=
  bool_decide (length qargs = width)
  && forallb (λ q, bool_decide (q < n)%nat) qargs
  && bool_decide (NoDup qargs).

(** [qc.append(op, qargs)]: the operation is placed by reference, after
    Qiskit's checks of the qubit arguments. *)
Definition append (qc : QuantumCircuit) (op : operation) (qargs : list nat)
    : M QuantumCircuit := λ s,
  match operation_width op s with
  | Some w =>
      if qargs_ok w (qc_num_qubits qc) qargs
      then (Ok {| qc_num_qubits := qc_num_qubits qc;
                  qc_name := qc_name qc;
                  qc_data := qc_data qc ++ [(op, qargs)] |}, s)
      else (Raise CircuitError, s)
  | None => (Raise CircuitError, s)
  end.

(** [qc.cx(control, target)] *)
Definition cx (qc : QuantumCircuit) (control target : nat)
    : M QuantumCircuit :=
  append qc OpCX [control; target].

(** [qc.to_gate()]: a new gate object whose definition is the circuit. *)
Definition QuantumCircuit_to_gate (qc : QuantumCircuit) : M nat :=
  new_gate {| gate_name := qc_name qc;
              gate_num_qubits := qc_num_qubits qc;
              gate_definition := qc_data qc |}.

(** [QuantumSafeFunction.to_gate]; the default of [name] is ["U_f"]. *)
Definition to_gate (self : QuantumSafeFunction) (name : string) : M nat :=
  let qc := QuantumCircuit_init 2 (Some name) in
  qc ← cx qc 0 1;
  QuantumCircuit_to_gate qc.

Definition default_gate_name : string := "U_f".

(** ** Quantum loop abstraction *)

Record QuantumLoop := {
  iterations : Z;
  body : QuantumSafeFunction
}.

Definition loop_message : string :=
  "Quantum loops must have fixed positive iterations".

(** [QuantumLoop.__init__] *)
Definition QuantumLoop_init (n : Z) (b : QuantumSafeFunction)
    : result QuantumLoop :=
  if decide (n ≤ 0)
  then Raise (ValueError loop_message)
  else Ok {| iterations := n; body := b |}.

(** [for _ in range(k): qc.append(gate, [0, 1])] *)
Fixpoint append_times (k : nat) (qc : QuantumCircuit) (gate : nat)
    : M QuantumCircuit :=
  match k with
  | O => mret qc
  | S k' =>
      qc' ← append qc (OpGate gate) [0; 1]%nat;
      append_times k' qc' gate
  end.

Definition build_circuit (self : QuantumLoop) : M QuantumCircuit :=
  let qc := QuantumCircuit_init 2 None in
  gate ← to_gate (body self) default_gate_name;
  append_times (Z.to_nat (iterations self)) qc gate.

(** ** A fragment of function bodies

    Enough of Python's statements to write the functions this module is
    applied to, with names already resolved as the compiler resolves them:
    a parameter or assigned name is a local, any other name a global.  The
    tests of [if] are comparisons. *)

Inductive binop :=
  | BXor
  | BSub.

Inductive expr :=
  | EConst (v : value)
  | ELocal (x : string)
  | EGlobal (g : string)
  | EBinOp (op : binop) (e1 e2 : expr).

Inductive test :=
  | TEq (e1 e2 : expr)
  | TNotEq (e1 e2 : expr).

Inductive stmt :=
  | SReturn (e : expr)
  | SAssign (x : string) (e : expr)
  | SIf (t : test) (s1 s2 : stmt)
  | SSeq (s1 s2 : stmt)
  | SPass.

(** [co_names]: the global names the code loads, each once, in the order
    of first use.  Locals and constants live in other tables, and the
    keywords of statements leave no name at all. *)
Definition add_name (acc : list string) (g : string) : list string :=
  if decide (g ∈ acc) then acc else acc ++ [g].

Fixpoint expr_names (e : expr) (acc : list string) : list string :=
  match e with
  | EConst _ | ELocal _ => acc
  | EGlobal g => add_name acc g
  | EBinOp _ e1 e2 => expr_names e2 (expr_names e1 acc)
  end.

Definition test_names (t : test) (acc : list string) : list string :=
  match t with
  | TEq e1 e2 | TNotEq e1 e2 => expr_names e2 (expr_names e1 acc)
  end.

Fixpoint stmt_names (s : stmt) (acc : list string) : list string :=
  match s with
  | SReturn e | SAssign _ e => expr_names e acc
  | SIf t s1 s2 => stmt_names s2 (stmt_names s1 (test_names t acc))
  | SSeq s1 s2 => stmt_names s2 (stmt_names s1 acc)
  | SPass => acc
  end.

Definition co_names_of (body : stmt) : list string := stmt_names body [].

Definition eval_binop (op : binop) (a b : value) : result value :=
  match op, a, b with
  | BXor, VInt m, VInt n => Ok (VInt (Z.lxor m n))
  | BSub, VInt m, VInt n => Ok (VInt (m - n))
  | _, _, _ => Raise TypeError
  end.

Section Exec.
Variable globals : gmap string value.

Fixpoint eval_expr (locals : gmap string value) (e : expr) : result value :=
  match e with
  | EConst v => Ok v
  | ELocal x =>
      match locals !! x with
      | Some v => Ok v
      | None => Raise UnboundLocalError
      end
  | EGlobal g =>
      match globals !! g with
      | Some v => Ok v
      | None => Raise NameError
      end
  | EBinOp op e1 e2 =>
      a ← eval_expr locals e1;
      b ← eval_expr locals e2;
      eval_binop op a b
  end.

Definition eval_test (locals : gmap string value) (t : test) : result bool :=
  match t with
  | TEq e1 e2 =>
      a ← eval_expr locals e1;
      b ← eval_expr locals e2;
      mret (bool_decide (a = b))
  | TNotEq e1 e2 =>
      a ← eval_expr locals e1;
      b ← eval_expr locals e2;
      mret (bool_decide (a ≠ b))
  end.

(** A statement either falls through with new locals or returns. *)
Inductive outcome :=
  | Next (locals : gmap string value)
  | Returned (v : value).

Fixpoint exec (locals : gmap string value) (s : stmt) : result outcome :=
  match s with
  | SReturn e => v ← eval_expr locals e; mret (Returned v)
  | SAssign x e => v ← eval_expr locals e; mret (Next (<[x := v]> locals))
  | SIf t s1 s2 =>
      b ← eval_test locals t;
      if b : bool then exec locals s1 else exec locals s2
  | SSeq s1 s2 =>
      o ← exec locals s1;
      match o with
      | Next locals' => exec locals' s2
      | Returned v => mret (Returned v)
      end
  | SPass => mret (Next locals)
  end.

(** Calling [def name(param): body]; falling off the end returns
    [None]. *)
Definition run_body (param : string) (body : stmt) (a : call_args)
    : result value :=
  x ← bind_param param a;
  o ← exec {[param := x]} body;
  match o with
  | Next _ => mret VNone
  | Returned v => mret v
  end.

Definition def_unary (name param : string) (body : stmt) : pyfunc :=
  {| fn_name := name;
     fn_co_names := co_names_of body;
     fn_call := λ a, lift (run_body param body a) |}.
End Exec.

(** Whether a statement has an [if] whose test reads a local, that is,
    data only known when the function runs. *)
Fixpoint reads_local (e : expr) : bool :=
  match e with
  | ELocal _ => true
  | EConst _ | EGlobal _ => false
  | EBinOp _ e1 e2 => reads_local e1 || reads_local e2
  end.

Definition test_reads_local (t : test) : bool :=
  match t with
  | TEq e1 e2 | TNotEq e1 e2 => reads_local e1 || reads_local e2
  end.

Fixpoint has_data_dependent_if (s : stmt) : bool :=
  match s with
  | SIf t s1 s2 =>
      test_reads_local t || has_data_dependent_if s1 || has_data_dependent_if s2
  | SSeq s1 s2 => has_data_dependent_if s1 || has_data_dependent_if s2
  | SReturn _ | SAssign _ _ | SPass => false
  end.

(** ** The functions of the module and of its documentation *)

(** [def reversible_increment(x): return x ^ 1], before decoration. *)
Definition reversible_increment_raw : pyfunc :=
  def_unary ∅ "reversible_increment" "x"
    (SReturn (EBinOp BXor (ELocal "x") (EConst (VInt 1)))).

(** [def f(x): return 0] *)
Definition constant_zero : pyfunc :=
  def_unary ∅ "f" "x" (SReturn (EConst (VInt 0))).

(** [def is_zero(x): if x == 0: return 1 else: return 0] *)
Definition is_zero_body : stmt :=
  SIf (TEq (ELocal "x") (EConst (VInt 0)))
    (SReturn (EConst (VInt 1)))
    (SReturn (EConst (VInt 0))).

Definition is_zero : pyfunc := def_unary ∅ "is_zero" "x" is_zero_body.

(** [def discard(x): pass] *)
Definition discard : pyfunc := def_unary ∅ "discard" "x" SPass.

(** A function object whose name table holds two forbidden words.  No
    [def] compiles to such a table; a code object put together by hand can
    have it. *)
Definition keyword_named : pyfunc :=
  {| fn_name := "keyword_named";
     fn_co_names := ["if"; "while"];
     fn_call := fn_call constant_zero |}.

(** The decoration of the module's example, outermost last. *)
Definition decorate (order : list string) (raw : pyfunc) : M pyfunc :=
  g ← reversible raw;
  lift (no_control_flow_divergence order (no_information_deletion g)).

(** ** Auxiliary notions used in the statements *)

(** [g(x)] evaluated [n] times in a row, collecting the results. *)
Fixpoint call_repeatedly (g : pyfunc) (x : value) (n : nat) : M (list value) :=
  match n with
  | O => mret []
  | S n' =>
      y ← fn_call g (call1 x);
      ys ← call_repeatedly g x n';
      mret (y :: ys)
  end.

(** A function object with the same name and code but another behaviour. *)
Definition with_call (f : pyfunc) (c : call_args → M value) : pyfunc :=
  {| fn_name := fn_name f; fn_co_names := fn_co_names f; fn_call := c |}.

(** A function that has no access to any [seen_outputs]: changing a ledger
    before the call or after it makes no difference. *)
Definition ledger_blind (f : pyfunc) : Prop :=
  ∀ a s r s',
    fn_call f a s = (r, s') →
    ledgers s' = ledgers s ∧
    ∀ l d, fn_call f a (set_ledger l d s) = (r, set_ledger l d s').

(** A function object that came out of the three checks. *)
Definition validated (f : pyfunc) : Prop :=
  ∃ order raw s s',
    Permutation order forbidden ∧ decorate order raw s = (Ok f, s').

Definition raises {A : Type} (o : result A * store) : Prop :=
  ∃ e s, o = (Raise e, s).

Definition raises_InformationDeletion {A : Type} (o : result A * store)
    : Prop :=
  ∃ msg s, o = (Raise (InformationDeletionError msg), s).

(** A body that loads no global name. *)
Fixpoint expr_loads_no_global (e : expr) : bool :=
  match e with
  | EConst _ | ELocal _ => true
  | EGlobal _ => false
  | EBinOp _ e1 e2 => expr_loads_no_global e1 && expr_loads_no_global e2
  end.

Definition test_loads_no_global (t : test) : bool :=
  match t with
  | TEq e1 e2 | TNotEq e1 e2 =>
      expr_loads_no_global e1 && expr_loads_no_global e2
  end.

Fixpoint loads_no_global (s : stmt) : bool :=
  match s with
  | SReturn e | SAssign _ e => expr_loads_no_global e
  | SIf t s1 s2 =>
      test_loads_no_global t && loads_no_global s1 && loads_no_global s2
  | SSeq s1 s2 => loads_no_global s1 && loads_no_global s2
  | SPass => true
  end.

(** [isinstance(e, QuantumRuleViolation)]: the three rule violations derive
    from the common base class; the other exceptions do not. *)
Definition is_QuantumRuleViolation (e : exn) : bool :=
  match e with
  | IrreversibleFunctionError _
  | InformationDeletionError _
  | ControlFlowDivergenceError _ => true
  | ValueError _ | TypeError | NameError | UnboundLocalError
  | CircuitError => false
  end.

(** [g(x)] for each [x] of [xs] in turn, collecting the results; the first
    exception ends the run. *)
Fixpoint call_each (g : pyfunc) (xs : list value) : M (list value) :=
  match xs with
  | [] => mret []
  | x :: xs' =>
      y ← fn_call g (call1 x);
      ys ← call_each g xs';
      mret (y :: ys)
  end.

(** On the inputs [xs], [f] computes [sem] and does nothing else. *)
Definition computes_on (f : pyfunc) (sem : value → value)
    (xs : list value) : Prop :=
  ∀ x s, x ∈ xs → fn_call f (call1 x) s = (Ok (sem x), s).

Definition injective_on (sem : value → value) (xs : list value) : Prop :=
  ∀ x x', x ∈ xs → x' ∈ xs → sem x = sem x' → x = x'.

(** The ledger [l] holds exactly the inputs [seen], each under its output
    by [sem]. *)
Definition ledger_holds (sem : value → value) (l : nat)
    (seen : list value) (s : store) : Prop :=
  ∀ y x, ledger_at l s !! y = Some x ↔ x ∈ seen ∧ sem x = y.

(** The module-level name [reversible_increment]: the [def] under its three
    decorators. *)
Definition reversible_increment (order : list string) : M pyfunc :=
  decorate order reversible_increment_raw.

(** [main], given the module-level [reversible_increment], up to the circuit
    it hands to [draw]; drawing and printing are Qiskit's and the
    interpreter's. *)
Definition main (reversible_increment : pyfunc) : M QuantumCircuit :=
  let safe_func := QuantumSafeFunction_init reversible_increment in
  qloop ← lift (QuantumLoop_init 3 safe_func);
  build_circuit qloop.

(** * Properties *)

(** ** The store *)

Lemma ledger_at_set_eq l d s : ledger_at l (set_ledger l d s) = d.
Proof. unfold ledger_at, set_ledger; simpl. by rewrite lookup_insert_eq. Qed.

Lemma ledger_at_set_ne l l' d s :
  l ≠ l' → ledger_at l' (set_ledger l d s) = ledger_at l' s.
Proof.
  intros Hne. unfold ledger_at, set_ledger; simpl.
  by rewrite lookup_insert_ne.
Qed.

Lemma gates_set_ledger l d s : gates (set_ledger l d s) = gates s.
Proof. reflexivity. Qed.

Lemma set_ledger_commute l l' d d' s :
  l ≠ l' →
  set_ledger l d (set_ledger l' d' s) = set_ledger l' d' (set_ledger l d s).
Proof.
  intros Hne. unfold set_ledger; simpl. f_equal.
  by apply insert_insert_ne.
Qed.

Lemma set_ledger_twice l d d' s :
  set_ledger l d (set_ledger l d' s) = set_ledger l d s.
Proof. unfold set_ledger; simpl. f_equal. apply insert_insert_eq. Qed.

(** ** [reversible] *)

Lemma reversible_eq f s :
  reversible f s =
  (Ok (reversible_closure f (fresh_ledger s)),
   set_ledger (fresh_ledger s) ∅ s).
Proof. reflexivity. Qed.

Lemma fresh_ledger_not_live (s : store) : fresh_ledger s ∉ dom (ledgers s).
Proof. unfold fresh_ledger. apply is_fresh. Qed.

(** The test [y in seen_outputs and seen_outputs[y] != x]. *)
Lemma conflict_true (seen : gmap value value) (x y : value) :
  bool_decide (is_Some (seen !! y)) && bool_decide (seen !!! y ≠ x) = true
  ↔ ∃ x', seen !! y = Some x' ∧ x' ≠ x.
Proof.
  rewrite andb_true_iff, !bool_decide_eq_true. split.
  - intros [[x' Hx'] Hne]. exists x'. split; [done|].
    by rewrite (lookup_total_correct _ _ _ Hx') in Hne.
  - intros (x' & Hx' & Hne). split; [by exists x'|].
    by rewrite (lookup_total_correct _ _ _ Hx').
Qed.

Lemma conflict_false (seen : gmap value value) (x y : value) :
  bool_decide (is_Some (seen !! y)) && bool_decide (seen !!! y ≠ x) = false
  ↔ ∀ x', seen !! y = Some x' → x' = x.
Proof.
  rewrite <- not_true_iff_false, conflict_true. split.
  - intros Hno x' Hx'. destruct (decide (x' = x)); [done|].
    exfalso. apply Hno. by exists x'.
  - intros Hall (x' & Hx' & Hne). by apply Hne, Hall.
Qed.

(** One call of the wrapper, once the wrapped function has returned. *)
Lemma reversible_wrapper_step f l x y s s' :
  fn_call f (call1 x) s = (Ok y, s') →
  reversible_wrapper f l (call1 x) s =
  if bool_decide (is_Some (ledger_at l s' !! y))
     && bool_decide (ledger_at l s' !!! y ≠ x)
  then (Raise (IrreversibleFunctionError
                 (irreversible_message (fn_name f) (ledger_at l s' !!! y) x y)),
        s')
  else (Ok y, set_ledger l (<[y := x]> (ledger_at l s')) s').
Proof.
  intros Hf. unfold reversible_wrapper, mbind, M_bind, lift; simpl.
  rewrite Hf; simpl. unfold read_ledger.
  by destruct (bool_decide _ && bool_decide _).
Qed.

Lemma reversible_wrapper_raise f l x e s s' :
  fn_call f (call1 x) s = (Raise e, s') →
  reversible_wrapper f l (call1 x) s = (Raise e, s').
Proof.
  intros Hf. unfold reversible_wrapper, mbind, M_bind, lift; simpl.
  by rewrite Hf.
Qed.

(** C1.  Let [g] be obtained by wrapping [f] with [reversible] in store
    [s0].  The wrap creates a ledger of its own: a reference that no ledger
    of [s0] has is live from then on and holds the empty dictionary, the
    ledgers of [s0] and the gates are as they were, and no wrap made later,
    while that ledger is live, gets the same reference, so the ledger is
    private to [g].  Whenever [f(x)] returns [y] and that ledger holds no
    entry for [y] under another input, [g(x)] returns [y] and the ledger
    becomes the old one with [y -> x] recorded; no other ledger and no gate
    object changes. *)
Theorem reversible_returns_and_records (f : pyfunc) (s0 : store)
    (g : pyfunc) (s1 : store) :
  reversible f s0 = (Ok g, s1) →
  (fresh_ledger s0 ∉ dom (ledgers s0)) ∧
  ledger_at (fresh_ledger s0) s1 = ∅ ∧
  (fresh_ledger s0 ∈ dom (ledgers s1)) ∧
  ledgers s1 = <[fresh_ledger s0 := ∅]> (ledgers s0) ∧
  gates s1 = gates s0 ∧
  (∀ t f' g' t',
     dom (ledgers s1) ⊆ dom (ledgers t) →
     reversible f' t = (Ok g', t') →
     fresh_ledger t ≠ fresh_ledger s0 ∧
     (fresh_ledger t ∈ dom (ledgers t')) ∧
     ledger_at (fresh_ledger s0) t' = ledger_at (fresh_ledger s0) t) ∧
  ∀ x y s s',
    fn_call f (call1 x) s = (Ok y, s') →
    (∀ x', ledger_at (fresh_ledger s0) s' !! y = Some x' → x' = x) →
    ∃ s'',
      fn_call g (call1 x) s = (Ok y, s'') ∧
      ledger_at (fresh_ledger s0) s'' =
        <[y := x]> (ledger_at (fresh_ledger s0) s') ∧
      ledger_at (fresh_ledger s0) s'' !! y = Some x ∧
      (∀ l', fresh_ledger s0 ≠ l' → ledger_at l' s'' = ledger_at l' s') ∧
      gates s'' = gates s'.
Proof.
  rewrite reversible_eq. intros [= <- <-].
  assert (Hlive : ∀ t : store,
            fresh_ledger t ∈ dom (ledgers (set_ledger (fresh_ledger t) ∅ t))).
  { intros t. unfold set_ledger; simpl. rewrite dom_insert_L.
    apply elem_of_union_l, elem_of_singleton. reflexivity. }
  split; [apply fresh_ledger_not_live|].
  split; [apply ledger_at_set_eq|].
  split; [apply Hlive|]. split; [reflexivity|]. split; [reflexivity|].
  split.
  { intros t f' g' t' Hsub. rewrite reversible_eq. intros [= <- <-].
    assert (Hne : fresh_ledger t ≠ fresh_ledger s0).
    { intros Heq. apply (fresh_ledger_not_live t). rewrite Heq.
      apply Hsub, Hlive. }
    split; [exact Hne|]. split; [apply Hlive|].
    by apply ledger_at_set_ne. }
  intros x y s s' Hf Hfree.
  eexists. simpl. rewrite (reversible_wrapper_step _ _ _ _ _ _ Hf).
  apply conflict_false in Hfree. rewrite Hfree.
  split; [reflexivity|]. rewrite ledger_at_set_eq.
  split; [reflexivity|]. split; [apply lookup_insert_eq|].
  split; [|reflexivity].
  intros l' Hne. by apply ledger_at_set_ne.
Qed.

(** C2.  Let [g] be obtained by wrapping [f] with [reversible] in store
    [s0].  Whenever [f(x)] returns a [y] that the ledger of [g] already
    holds for another input [x'], [g(x)] raises [IrreversibleFunctionError]
    with the message that names the function and spells out [x'], [x] and
    [y], and the failing call writes nothing: the store is the one [f]
    left, so the entry [y -> x'] is still there. *)
Theorem reversible_collision_raises (f : pyfunc) (s0 : store)
    (g : pyfunc) (s1 : store) :
  reversible f s0 = (Ok g, s1) →
  ∀ x x' y s s',
    fn_call f (call1 x) s = (Ok y, s') →
    ledger_at (fresh_ledger s0) s' !! y = Some x' →
    x' ≠ x →
    fn_call g (call1 x) s =
      (Raise (IrreversibleFunctionError
                ("Function " +:+ fn_name f +:+ " is not reversible: " +:+
                 py_str x' +:+ " and " +:+ py_str x +:+
                 " map to " +:+ py_str y)), s')
    ∧ ledger_at (fresh_ledger s0) s' !! y = Some x'.
Proof.
  rewrite reversible_eq. intros [= <- <-].
  intros x x' y s s' Hf Hseen Hne. split; [|done]. simpl.
  rewrite (reversible_wrapper_step _ _ _ _ _ _ Hf).
  assert (Hc : ∃ x0, ledger_at (fresh_ledger s0) s' !! y = Some x0 ∧ x0 ≠ x)
    by eauto.
  apply conflict_true in Hc. rewrite Hc.
  by rewrite (lookup_total_correct _ _ _ Hseen).
Qed.

(** C3.  Let [g] be obtained by wrapping [f] with [reversible] in store
    [s0], and let [f(x)] return [y].  If the ledger of [g] already holds
    [y -> x], [g(x)] returns [y] and leaves the ledger as it is.  [g(x)]
    raises exactly when the ledger holds [y] for an input other than [x].
    And if [f] returns [y] on [x] every time without touching the ledger,
    then from any state where [y] is not held for another input, [g(x)]
    evaluated [n] times in a row returns [y] every time, for every [n]. *)
Theorem reversible_same_input_never_raises (f : pyfunc) (s0 : store)
    (g : pyfunc) (s1 : store) :
  reversible f s0 = (Ok g, s1) →
  (∀ x y s s',
     fn_call f (call1 x) s = (Ok y, s') →
     (ledger_at (fresh_ledger s0) s' !! y = Some x →
      ∃ s'', fn_call g (call1 x) s = (Ok y, s'') ∧
             ledger_at (fresh_ledger s0) s'' = ledger_at (fresh_ledger s0) s') ∧
     (raises (fn_call g (call1 x) s) ↔
      ∃ x', ledger_at (fresh_ledger s0) s' !! y = Some x' ∧ x' ≠ x)) ∧
  (∀ x y,
     (∀ s, ∃ s', fn_call f (call1 x) s = (Ok y, s') ∧
                 ledger_at (fresh_ledger s0) s' = ledger_at (fresh_ledger s0) s) →
     ∀ n s,
       (∀ x', ledger_at (fresh_ledger s0) s !! y = Some x' → x' = x) →
       ∃ s', call_repeatedly g x n s = (Ok (replicate n y), s')).
Proof.
  rewrite reversible_eq. intros [= <- <-].
  set (l := fresh_ledger s0). split.
  - intros x y s s' Hf. split.
    + intros Hseen. eexists. simpl.
      rewrite (reversible_wrapper_step _ _ _ _ _ _ Hf).
      assert (Hno : ∀ x', ledger_at l s' !! y = Some x' → x' = x)
        by (intros x' Hx'; congruence).
      apply conflict_false in Hno. rewrite Hno.
      split; [reflexivity|]. rewrite ledger_at_set_eq.
      by apply insert_id.
    + simpl. rewrite (reversible_wrapper_step _ _ _ _ _ _ Hf).
      rewrite <- conflict_true.
      destruct (bool_decide _ && bool_decide _); split.
      * done.
      * intros _. by eexists _, _.
      * intros (e & s'' & [=]).
      * done.
  - intros x y Hstable n. induction n as [|n IH]; intros s Hno.
    + by eexists.
    + destruct (Hstable s) as (s' & Hf & Hsame).
      destruct (IH (set_ledger l (<[y := x]> (ledger_at l s')) s'))
        as (s'' & Hrest).
      { intros x'. rewrite ledger_at_set_eq, lookup_insert_eq. congruence. }
      exists s''. simpl. unfold mbind at 1, M_bind at 1. simpl.
      rewrite (reversible_wrapper_step _ _ _ _ _ _ Hf).
      rewrite <- Hsame in Hno. apply conflict_false in Hno. rewrite Hno.
      unfold mbind, M_bind. fold (call_repeatedly (reversible_closure f l) x n).
      by rewrite Hrest.
Qed.

(** ** [no_information_deletion] *)

Lemma no_information_deletion_wrapper_step f a s r s' :
  fn_call f a s = (Ok r, s') →
  no_information_deletion_wrapper f a s =
  if decide (r = VNone)
  then (Raise (InformationDeletionError (deletion_message (fn_name f))), s')
  else (Ok r, s').
Proof.
  intros Hf. unfold no_information_deletion_wrapper, mbind, M_bind.
  rewrite Hf. by destruct (decide _).
Qed.

(** An exception of the wrapped function passes through unchanged. *)
Lemma no_information_deletion_propagates f a s e s' :
  fn_call f a s = (Raise e, s') →
  fn_call (no_information_deletion f) a s = (Raise e, s').
Proof.
  intros Hf. simpl. unfold no_information_deletion_wrapper, mbind, M_bind.
  by rewrite Hf.
Qed.

(** C4.  Let [f] be wrapped by [no_information_deletion] and let [f],
    called with the very arguments the wrapper received, return [r].  If
    [r] is [None] the wrapped call raises [InformationDeletionError] with
    the message naming [f]; if [r] is anything else the wrapped call
    returns [r] itself; hence the wrapped call raises
    [InformationDeletionError] exactly when [r] is [None].  In both cases
    the store is the one [f] left. *)
Theorem no_information_deletion_raises_iff_None (f : pyfunc)
    (a : call_args) (s : store) (r : value) (s' : store) :
  fn_call f a s = (Ok r, s') →
  (r = VNone →
   fn_call (no_information_deletion f) a s =
     (Raise (InformationDeletionError
               ("Function " +:+ fn_name f +:+
                " discards information (returns None)")), s')) ∧
  (r ≠ VNone → fn_call (no_information_deletion f) a s = (Ok r, s')) ∧
  (raises_InformationDeletion (fn_call (no_information_deletion f) a s)
   ↔ r = VNone) ∧
  (raises (fn_call (no_information_deletion f) a s) ↔ r = VNone).
Proof.
  intros Hf. simpl.
  rewrite (no_information_deletion_wrapper_step _ _ _ _ _ Hf).
  destruct (decide (r = VNone)) as [HN|HN].
  - split; [done|]. split; [done|]. split; (split; [done|]); intros _.
    + by eexists _, _.
    + by eexists _, _.
  - split; [done|]. split; [done|]. split; (split; [|done]).
    + intros (msg & s'' & [=]).
    + intros (e & s'' & [=]).
Qed.

(** ** [no_control_flow_divergence] *)

Lemma check_names_raise order f :
  (∃ k, k ∈ order ∧ k ∈ fn_co_names f) →
  ∃ k, k ∈ order ∧ k ∈ fn_co_names f ∧
       check_names order f =
       Raise (ControlFlowDivergenceError (divergence_message (fn_name f) k)).
Proof.
  induction order as [|name rest IH]; intros (k & Hk & Hin).
  - by apply elem_of_nil in Hk.
  - simpl. case_bool_decide as Hname.
    + exists name. split; [apply list_elem_of_here|]. done.
    + apply elem_of_cons in Hk as [->|Hk]; [done|].
      destruct IH as (k' & Hk' & Hin' & Heq); [by exists k|].
      exists k'. split; [by apply list_elem_of_further|]. done.
Qed.

Lemma check_names_pass order f :
  (∀ k, k ∈ order → k ∉ fn_co_names f) → check_names order f = Ok f.
Proof.
  induction order as [|name rest IH]; intros Hall; [done|].
  simpl. case_bool_decide as Hname.
  - exfalso. by apply (Hall name); [apply list_elem_of_here|].
  - apply IH. intros k Hk. apply Hall. by apply list_elem_of_further.
Qed.

(** The loop looks at the name and the name table only. *)
Lemma check_names_with_call order f c :
  check_names order (with_call f c) =
  match check_names order f with
  | Ok _ => Ok (with_call f c)
  | Raise e => Raise e
  end.
Proof.
  induction order as [|name rest IH]; [done|].
  simpl. by case_bool_decide.
Qed.

(** C5.  [no_control_flow_divergence] runs when the decorator is applied,
    in whatever order Python visits the forbidden set.  If some forbidden
    word is in the function's name table, it raises
    [ControlFlowDivergenceError] whose message names the function and a
    forbidden word that is in the table; otherwise it returns the function
    object it was given.  The outcome is a value, not a computation on the
    store, and it is the same whatever the function does when called: the
    function is not called, and nothing is left to run at later calls. *)
Theorem no_control_flow_divergence_at_decoration (order : list string)
    (f : pyfunc) :
  Permutation order forbidden →
  ((∃ k, k ∈ forbidden ∧ k ∈ fn_co_names f) →
   ∃ k, k ∈ forbidden ∧ k ∈ fn_co_names f ∧
        no_control_flow_divergence order f =
        Raise (ControlFlowDivergenceError
                 ("Function " +:+ fn_name f +:+
                  " contains forbidden control flow: " +:+ k))) ∧
  ((∀ k, k ∈ forbidden → k ∉ fn_co_names f) →
   no_control_flow_divergence order f = Ok f) ∧
  (∀ c, no_control_flow_divergence order (with_call f c) =
        match no_control_flow_divergence order f with
        | Ok _ => Ok (with_call f c)
        | Raise e => Raise e
        end).
Proof.
  intros Hperm. unfold no_control_flow_divergence. split; [|split].
  - intros (k & Hk & Hin).
    destruct (check_names_raise order f) as (k' & Hk' & Hin' & Heq).
    { exists k. split; [|done]. by rewrite Hperm. }
    exists k'. split; [by rewrite <- Hperm|]. done.
  - intros Hall. apply check_names_pass.
    intros k Hk. apply Hall. by rewrite <- Hperm.
  - apply check_names_with_call.
Qed.

(** ** [QuantumLoop] *)

(** C6.  [QuantumLoop(n, b)] raises [ValueError] when [n] is zero or
    negative, and for every positive [n] it returns a loop whose
    [iterations] is [n] and whose [body] is [b]. *)
Theorem QuantumLoop_init_positive_only (n : Z) (b : QuantumSafeFunction) :
  (n ≤ 0 →
   QuantumLoop_init n b =
   Raise (ValueError "Quantum loops must have fixed positive iterations")) ∧
  (0 < n →
   ∃ loop, QuantumLoop_init n b = Ok loop ∧
           iterations loop = n ∧ body loop = b).
Proof.
  unfold QuantumLoop_init. split; intros Hn.
  - by rewrite decide_True.
  - rewrite decide_False by lia. by eexists.
Qed.

Lemma to_gate_eq (b : QuantumSafeFunction) (name : string) (s : store) :
  to_gate b name s =
  (Ok (length (gates s)),
   {| ledgers := ledgers s;
      gates := gates s ++ [{| gate_name := Some name;
                              gate_num_qubits := 2;
                              gate_definition := [(OpCX, [0; 1]%nat)] |}] |}).
Proof. reflexivity. Qed.

Lemma append_gate_eq (qc : QuantumCircuit) (ref : nat) (u : Gate) (s : store) :
  gates s !! ref = Some u →
  gate_num_qubits u = 2%nat →
  qc_num_qubits qc = 2%nat →
  append qc (OpGate ref) [0; 1]%nat s =
  (Ok {| qc_num_qubits := qc_num_qubits qc;
         qc_name := qc_name qc;
         qc_data := qc_data qc ++ [(OpGate ref, [0; 1]%nat)] |}, s).
Proof.
  intros Href Hw Hqc. unfold append, operation_width.
  rewrite Href; simpl. by rewrite Hw, Hqc.
Qed.

(** The loop appends the same reference [k] times and creates nothing. *)
Lemma append_times_eq (k : nat) : ∀ (qc : QuantumCircuit) (ref : nat)
    (u : Gate) (s : store),
  gates s !! ref = Some u →
  gate_num_qubits u = 2%nat →
  qc_num_qubits qc = 2%nat →
  append_times k qc ref s =
  (Ok {| qc_num_qubits := qc_num_qubits qc;
         qc_name := qc_name qc;
         qc_data := (qc_data qc ++ replicate k (OpGate ref, [0; 1]%nat))%list |},
   s).
Proof.
  induction k as [|k IH]; intros qc ref u s Href Hw Hqc.
  - simpl. rewrite app_nil_r. by destruct qc.
  - simpl. unfold mbind, M_bind.
    rewrite (append_gate_eq _ _ _ _ Href Hw Hqc).
    rewrite (IH _ _ _ _ Href Hw) by done. simpl.
    by rewrite <- app_assoc.
Qed.

(** C7.  For a loop constructed with [n > 0], [build_circuit] returns a
    circuit whose instructions are exactly [n] placements, on qubits 0 and
    1, of one and the same gate reference.  That reference and the store
    after the build are those of a single call of [to_gate] on the body:
    exactly one gate object is created, the two-qubit unit named ["U_f"]
    defined by one CNOT, and no ledger changes. *)
Theorem build_circuit_replicates_one_gate (n : Z) (b : QuantumSafeFunction)
    (loop : QuantumLoop) (s : store) :
  QuantumLoop_init n b = Ok loop →
  ∃ (qc : QuantumCircuit) (ref : nat) (s' : store),
    0 < n ∧
    to_gate b "U_f" s = (Ok ref, s') ∧
    build_circuit loop s = (Ok qc, s') ∧
    gates s' = (gates s ++ [{| gate_name := Some "U_f";
                               gate_num_qubits := 2;
                               gate_definition := [(OpCX, [0; 1]%nat)] |}])%list ∧
    gates s' !! ref = Some {| gate_name := Some "U_f";
                              gate_num_qubits := 2;
                              gate_definition := [(OpCX, [0; 1]%nat)] |} ∧
    ledgers s' = ledgers s ∧
    qc_data qc = replicate (Z.to_nat n) (OpGate ref, [0; 1]%nat) ∧
    Z.of_nat (length (qc_data qc)) = n.
Proof.
  unfold QuantumLoop_init. destruct (decide (n ≤ 0)) as [|Hn]; [done|].
  intros [= <-]. eexists _, _, _.
  split; [lia|]. split; [apply to_gate_eq|].
  assert (Hnew : ∀ (u : Gate),
            ((gates s ++ [u])%list) !! length (gates s) = Some u).
  { intros u. rewrite lookup_app_r by lia. by rewrite Nat.sub_diag. }
  split.
  { unfold build_circuit, mbind, M_bind. rewrite to_gate_eq. simpl.
    erewrite append_times_eq; [reflexivity| apply Hnew | done | done]. }
  simpl. split; [done|]. split; [apply Hnew|]. split; [done|].
  split; [done|]. rewrite length_replicate. lia.
Qed.

(** ** [QuantumSafeFunction] *)

Lemma check_names_Ok_inv order f g : check_names order f = Ok g → g = f.
Proof.
  induction order as [|name rest IH]; simpl.
  - by intros [= <-].
  - by case_bool_decide.
Qed.

(** What comes out of the decoration is the [no_information_deletion]
    wrapper around the [reversible] closure of the raw function. *)
Lemma decorate_Ok_inv order raw s f s' :
  decorate order raw s = (Ok f, s') →
  f = no_information_deletion (reversible_closure raw (fresh_ledger s)).
Proof.
  unfold decorate, mbind, M_bind. rewrite reversible_eq.
  unfold lift, no_control_flow_divergence.
  destruct (check_names order _) as [g|e] eqn:Hc; [|done].
  intros [= <- _]. by apply check_names_Ok_inv in Hc.
Qed.

(** C8, as stated, fails.  A [QuantumSafeFunction] need not hold a function
    that passed the three checks: the constructor takes the undecorated
    constant function, and [evaluate] then maps 0 and 1 to the same output
    without any error. *)
Lemma QuantumSafeFunction_accepts_unchecked :
  let q := QuantumSafeFunction_init constant_zero in
  ¬ validated (func q) ∧
  evaluate q (VInt 0) empty_store = (Ok (VInt 0), empty_store) ∧
  evaluate q (VInt 1) empty_store = (Ok (VInt 0), empty_store).
Proof.
  simpl. split; [|by split].
  intros (order & raw & s & s' & _ & Hdec).
  apply decorate_Ok_inv in Hdec.
  apply (f_equal fn_co_names) in Hdec. discriminate Hdec.
Qed.

(** C8 (as amended).  A [QuantumSafeFunction] holds the function it was
    constructed with and nothing else: the constructor accepts any function
    and stores it as given; [evaluate] calls the stored function and adds no
    check of its own; [to_gate] does not depend on the stored function and
    touches no ledger.  When the stored function came out of the three
    checks, it counts as validated and every [evaluate] runs the wrapped
    checks: the [None] test around the reversibility test against the
    ledger made at wrap time. *)
Theorem QuantumSafeFunction_holds_its_function (f : pyfunc) :
  func (QuantumSafeFunction_init f) = f ∧
  (∀ x, evaluate (QuantumSafeFunction_init f) x = fn_call f (call1 x)) ∧
  (∀ f' name, to_gate (QuantumSafeFunction_init f) name =
              to_gate (QuantumSafeFunction_init f') name) ∧
  (∀ name s, ∃ ref s',
     to_gate (QuantumSafeFunction_init f) name s = (Ok ref, s') ∧
     ledgers s' = ledgers s) ∧
  (∀ order raw s s',
     Permutation order forbidden →
     decorate order raw s = (Ok f, s') →
     validated (func (QuantumSafeFunction_init f)) ∧
     ∀ x, evaluate (QuantumSafeFunction_init f) x =
          no_information_deletion_wrapper
            (reversible_closure raw (fresh_ledger s)) (call1 x)).
Proof.
  split; [done|]. split; [done|]. split; [done|]. split.
  - intros name s. eexists _, _. by rewrite to_gate_eq.
  - intros order raw s s' Hperm Hdec. split.
    + by exists order, raw, s, s'.
    + intros x. by rewrite (decorate_Ok_inv _ _ _ _ _ Hdec).
Qed.

(** ** Independence of ledgers *)

(** A call through a [reversible] closure of a ledger-blind function
    commutes with any change to a ledger other than its own. *)
Lemma reversible_wrapper_frame f l l' a d s r s' :
  ledger_blind f →
  l ≠ l' →
  reversible_wrapper f l a s = (r, s') →
  reversible_wrapper f l a (set_ledger l' d s) = (r, set_ledger l' d s') ∧
  ledger_at l' s' = ledger_at l' s.
Proof.
  intros Hblind Hne. unfold reversible_wrapper, mbind, M_bind, lift.
  destruct (bind_x a) as [x|e]; [|by intros [= <- <-]].
  destruct (fn_call f (call1 x) s) as [rf sf] eqn:Hf.
  destruct (Hblind _ _ _ _ Hf) as [Hsame Hcomm].
  rewrite Hcomm. unfold read_ledger.
  assert (Hsf : ledger_at l' sf = ledger_at l' s)
    by (unfold ledger_at; by rewrite Hsame).
  destruct rf as [y|e]; [|by intros [= <- <-]].
  rewrite (ledger_at_set_ne l' l) by done.
  destruct (bool_decide _ && bool_decide _).
  - by intros [= <- <-].
  - unfold write_ledger, mret, M_ret. intros [= <- <-]. split.
    + by rewrite set_ledger_commute.
    + by rewrite ledger_at_set_ne.
Qed.

(** C9.  Wrap the same ledger-blind function twice with [reversible], the
    second time in any later store where the first ledger is still live.
    The two closures get different ledger references, each ledger is empty
    right after its own wrap, the second wrap leaves the first ledger as it
    is, and a call through either closure commutes with every change to the
    other's ledger and leaves it as it was: it neither reads nor writes
    it. *)
Theorem reversible_ledgers_independent (f : pyfunc) (s0 : store)
    (g1 : pyfunc) (s1 t : store) (g2 : pyfunc) (s2 : store) :
  ledger_blind f →
  reversible f s0 = (Ok g1, s1) →
  dom (ledgers s1) ⊆ dom (ledgers t) →
  reversible f t = (Ok g2, s2) →
  fresh_ledger s0 ≠ fresh_ledger t ∧
  ledger_at (fresh_ledger s0) s1 = ∅ ∧
  ledger_at (fresh_ledger t) s2 = ∅ ∧
  ledger_at (fresh_ledger s0) s2 = ledger_at (fresh_ledger s0) t ∧
  (∀ a d s r s',
     fn_call g1 a s = (r, s') →
     fn_call g1 a (set_ledger (fresh_ledger t) d s) =
       (r, set_ledger (fresh_ledger t) d s') ∧
     ledger_at (fresh_ledger t) s' = ledger_at (fresh_ledger t) s) ∧
  (∀ a d s r s',
     fn_call g2 a s = (r, s') →
     fn_call g2 a (set_ledger (fresh_ledger s0) d s) =
       (r, set_ledger (fresh_ledger s0) d s') ∧
     ledger_at (fresh_ledger s0) s' = ledger_at (fresh_ledger s0) s).
Proof.
  intros Hblind. rewrite !reversible_eq.
  intros [= <- <-] Hlive [= <- <-].
  set (l1 := fresh_ledger s0) in *.
  set (l2 := fresh_ledger t).
  assert (Hne : l1 ≠ l2).
  { intros Heq. apply (fresh_ledger_not_live t). fold l2. rewrite <- Heq.
    apply Hlive. unfold set_ledger; simpl. rewrite dom_insert_L.
    set_solver. }
  split; [done|].
  split; [apply ledger_at_set_eq|]. split; [apply ledger_at_set_eq|].
  split; [by apply ledger_at_set_ne|]. split.
  - intros a d s r s' Hcall. by apply reversible_wrapper_frame.
  - intros a d s r s' Hcall. by apply reversible_wrapper_frame.
Qed.

(** ** The name table and the body *)

Lemma expr_names_no_global e : ∀ acc,
  expr_loads_no_global e = true → expr_names e acc = acc.
Proof.
  induction e as [v|x|g|op e1 IH1 e2 IH2]; intros acc; simpl; try done.
  intros [H1 H2]%andb_true_iff. by rewrite IH1, IH2.
Qed.

Lemma test_names_no_global t acc :
  test_loads_no_global t = true → test_names t acc = acc.
Proof.
  destruct t as [e1 e2|e1 e2]; simpl; intros [H1 H2]%andb_true_iff;
    by rewrite !expr_names_no_global.
Qed.

Lemma stmt_names_no_global s : ∀ acc,
  loads_no_global s = true → stmt_names s acc = acc.
Proof.
  induction s as [e|x e|t s1 IH1 s2 IH2|s1 IH1 s2 IH2|]; intros acc; simpl.
  - apply expr_names_no_global.
  - apply expr_names_no_global.
  - intros [[Ht H1]%andb_true_iff H2]%andb_true_iff.
    by rewrite test_names_no_global, IH1, IH2.
  - intros [H1 H2]%andb_true_iff. by rewrite IH1, IH2.
  - done.
Qed.

(** However many [if]s a body has, its name table is empty unless it loads
    a global. *)
Lemma co_names_of_no_global body :
  loads_no_global body = true → co_names_of body = [].
Proof. apply stmt_names_no_global. Qed.

Lemma check_names_same_table order f f' :
  fn_co_names f = fn_co_names f' →
  (check_names order f = Ok f ↔ check_names order f' = Ok f').
Proof.
  intros Hsame. induction order as [|name rest IH]; simpl; [done|].
  rewrite <- Hsame. by case_bool_decide.
Qed.

Lemma check_names_empty_table order f :
  fn_co_names f = [] → check_names order f = Ok f.
Proof.
  intros Hnil. apply check_names_pass. intros k _.
  rewrite Hnil. apply not_elem_of_nil.
Qed.

Lemma def_unary_ledger_blind globals name param body :
  ledger_blind (def_unary globals name param body).
Proof.
  intros a s r s'. simpl. unfold lift. intros [= <- <-]. by split.
Qed.

(** C10.  Whether [no_control_flow_divergence] accepts a function depends
    on its name table alone: two functions with the same table are both
    accepted or both rejected, in every visiting order.  Statements leave
    no names: a body that loads no global is accepted whatever [if]s it
    has.  In particular [is_zero], whose body is an [if] on its argument
    and which returns 1 on 0 and 0 on 5, has none of the four forbidden
    words in its name table and is returned as it is. *)
Theorem control_flow_check_sees_names_only :
  (∀ order f f',
     fn_co_names f = fn_co_names f' →
     (no_control_flow_divergence order f = Ok f ↔
      no_control_flow_divergence order f' = Ok f')) ∧
  (∀ order globals name param body,
     loads_no_global body = true →
     no_control_flow_divergence order (def_unary globals name param body) =
     Ok (def_unary globals name param body)) ∧
  has_data_dependent_if is_zero_body = true ∧
  fn_call is_zero (call1 (VInt 0)) empty_store = (Ok (VInt 1), empty_store) ∧
  fn_call is_zero (call1 (VInt 5)) empty_store = (Ok (VInt 0), empty_store) ∧
  (∀ k, k ∈ forbidden → k ∉ fn_co_names is_zero) ∧
  (∀ order, no_control_flow_divergence order is_zero = Ok is_zero).
Proof.
  split; [|split; [|split; [|split; [|split; [|split]]]]].
  - intros order f f' Hsame. by apply check_names_same_table.
  - intros order globals name param body Hbody.
    apply check_names_empty_table. simpl. by apply co_names_of_no_global.
  - reflexivity.
  - reflexivity.
  - reflexivity.
  - intros k _. apply not_elem_of_nil.
  - intros order. by apply check_names_empty_table.
Qed.

(** ** The theorems at concrete inputs *)

(** [reversible_increment], wrapped in the empty store and called on 0. *)
Lemma reversible_returns_and_records_witness :
  ∃ s2,
    fn_call (reversible_closure reversible_increment_raw
               (fresh_ledger empty_store)) (call1 (VInt 0))
      (set_ledger (fresh_ledger empty_store) ∅ empty_store)
    = (Ok (VInt 1), s2) ∧
    ledger_at (fresh_ledger empty_store) s2 !! VInt 1 = Some (VInt 0).
Proof.
  destruct (reversible_returns_and_records reversible_increment_raw
              empty_store _ _ eq_refl)
    as (_ & Hempty & _ & _ & _ & _ & Hcall).
  destruct (Hcall (VInt 0) (VInt 1)
              (set_ledger (fresh_ledger empty_store) ∅ empty_store)
              (set_ledger (fresh_ledger empty_store) ∅ empty_store) eq_refl)
    as (s2 & Hg & _ & Hrec & _).
  - intros x'. rewrite Hempty, lookup_empty. discriminate.
  - exists s2. split; [exact Hg | exact Hrec].
Defined.

(** The constant function, wrapped, called on 0 and then on 1. *)
Lemma reversible_collision_raises_witness :
  ∃ g s1 s2,
    reversible constant_zero empty_store = (Ok g, s1) ∧
    fn_call g (call1 (VInt 0)) s1 = (Ok (VInt 0), s2) ∧
    fn_call g (call1 (VInt 1)) s2 =
      (Raise (IrreversibleFunctionError
                "Function f is not reversible: 0 and 1 map to 0"), s2).
Proof.
  eexists _, _, _. split; [reflexivity|]. split; [reflexivity|].
  apply (reversible_collision_raises constant_zero empty_store _ _ eq_refl
           (VInt 1) (VInt 0) (VInt 0)).
  - reflexivity.
  - vm_compute. reflexivity.
  - discriminate.
Defined.

(** [reversible_increment], wrapped, called three times on 0. *)
Lemma reversible_same_input_never_raises_witness :
  ∃ s',
    call_repeatedly
      (reversible_closure reversible_increment_raw (fresh_ledger empty_store))
      (VInt 0) 3 (set_ledger (fresh_ledger empty_store) ∅ empty_store)
    = (Ok [VInt 1; VInt 1; VInt 1], s').
Proof.
  apply (proj2 (reversible_same_input_never_raises reversible_increment_raw
                  empty_store _ _ eq_refl) (VInt 0) (VInt 1)).
  - intros s. exists s. split; reflexivity.
  - intros x' Hx'. vm_compute in Hx'. discriminate Hx'.
Defined.

(** [discard] returns [None] on 7. *)
Lemma no_information_deletion_raises_iff_None_witness :
  fn_call (no_information_deletion discard) (call1 (VInt 7)) empty_store =
  (Raise (InformationDeletionError
            "Function discard discards information (returns None)"),
   empty_store).
Proof.
  apply (no_information_deletion_raises_iff_None discard (call1 (VInt 7))
           empty_store VNone empty_store eq_refl).
  reflexivity.
Defined.

(** The forbidden set visited from its last member to its first. *)
Lemma no_control_flow_divergence_at_decoration_witness :
  (∃ k, k ∈ forbidden ∧ k ∈ fn_co_names keyword_named ∧
        no_control_flow_divergence ["continue"; "break"; "while"; "if"]
          keyword_named =
        Raise (ControlFlowDivergenceError
                 ("Function " +:+ fn_name keyword_named +:+
                  " contains forbidden control flow: " +:+ k))).
Proof.
  apply (no_control_flow_divergence_at_decoration
           ["continue"; "break"; "while"; "if"] keyword_named).
  - apply Permutation_sym, (Permutation_rev forbidden).
  - exists "if". split; [apply list_elem_of_here | apply list_elem_of_here].
Defined.

Lemma QuantumLoop_init_positive_only_witness :
  QuantumLoop_init 0 (QuantumSafeFunction_init reversible_increment_raw) =
    Raise (ValueError "Quantum loops must have fixed positive iterations") ∧
  ∃ loop,
    QuantumLoop_init 3 (QuantumSafeFunction_init reversible_increment_raw) =
      Ok loop ∧
    iterations loop = 3 ∧
    body loop = QuantumSafeFunction_init reversible_increment_raw.
Proof.
  split.
  - apply (QuantumLoop_init_positive_only 0). lia.
  - apply (QuantumLoop_init_positive_only 3). lia.
Defined.

(** A loop of three in the empty store. *)
Lemma build_circuit_replicates_one_gate_witness :
  ∃ qc ref s',
    0 < 3 ∧
    to_gate (QuantumSafeFunction_init reversible_increment_raw) "U_f"
      empty_store = (Ok ref, s') ∧
    build_circuit
      {| iterations := 3;
         body := QuantumSafeFunction_init reversible_increment_raw |}
      empty_store = (Ok qc, s') ∧
    gates s' = (gates empty_store ++
                [{| gate_name := Some "U_f";
                    gate_num_qubits := 2;
                    gate_definition := [(OpCX, [0; 1]%nat)] |}])%list ∧
    gates s' !! ref = Some {| gate_name := Some "U_f";
                              gate_num_qubits := 2;
                              gate_definition := [(OpCX, [0; 1]%nat)] |} ∧
    ledgers s' = ledgers empty_store ∧
    qc_data qc = replicate (Z.to_nat 3) (OpGate ref, [0; 1]%nat) ∧
    Z.of_nat (length (qc_data qc)) = 3.
Proof.
  apply (build_circuit_replicates_one_gate 3
           (QuantumSafeFunction_init reversible_increment_raw)).
  reflexivity.
Defined.

(** The module's decorated [reversible_increment] inside a
    [QuantumSafeFunction]. *)
Lemma QuantumSafeFunction_holds_its_function_witness :
  validated
    (func (QuantumSafeFunction_init
             (no_information_deletion
                (reversible_closure reversible_increment_raw
                   (fresh_ledger empty_store))))) ∧
  ∀ x,
    evaluate
      (QuantumSafeFunction_init
         (no_information_deletion
            (reversible_closure reversible_increment_raw
               (fresh_ledger empty_store)))) x =
    no_information_deletion_wrapper
      (reversible_closure reversible_increment_raw (fresh_ledger empty_store))
      (call1 x).
Proof.
  apply (QuantumSafeFunction_holds_its_function
           (no_information_deletion
              (reversible_closure reversible_increment_raw
                 (fresh_ledger empty_store)))
        ) with (order := forbidden)
               (s' := set_ledger (fresh_ledger empty_store) ∅ empty_store).
  - apply Permutation_refl.
  - reflexivity.
Defined.

(** The constant function wrapped twice in a row. *)
Lemma reversible_ledgers_independent_witness :
  fresh_ledger empty_store ≠
    fresh_ledger (set_ledger (fresh_ledger empty_store) ∅ empty_store) ∧
  ∀ a s r s',
    fn_call (reversible_closure constant_zero (fresh_ledger empty_store)) a s
      = (r, s') →
    ledger_at
      (fresh_ledger (set_ledger (fresh_ledger empty_store) ∅ empty_store)) s'
    = ledger_at
        (fresh_ledger (set_ledger (fresh_ledger empty_store) ∅ empty_store)) s.
Proof.
  destruct (reversible_ledgers_independent constant_zero empty_store
              _ _ (set_ledger (fresh_ledger empty_store) ∅ empty_store) _ _
              (def_unary_ledger_blind _ _ _ _) eq_refl
              (reflexivity _) eq_refl)
    as (Hne & _ & _ & _ & Hg1 & _).
  split; [exact Hne|].
  intros a s r s' Hcall. exact (proj2 (Hg1 a ∅ s r s' Hcall)).
Defined.

Lemma control_flow_check_sees_names_only_witness :
  no_control_flow_divergence forbidden constant_zero = Ok constant_zero ↔
  no_control_flow_divergence forbidden is_zero = Ok is_zero.
Proof.
  apply (proj1 control_flow_check_sees_names_only forbidden constant_zero
           is_zero).
  reflexivity.
Defined.

(** ** The module's example, end to end *)

(** [reversible_increment] decorated as in the module maps 0 to 1 and 1 to
    0 without raising, and a loop of three over it is three placements of
    one gate. *)
Example main_succeeds :
  ∃ g s1 s2 s3 loop qc s4,
    decorate forbidden reversible_increment_raw empty_store = (Ok g, s1) ∧
    evaluate (QuantumSafeFunction_init g) (VInt 0) s1 = (Ok (VInt 1), s2) ∧
    evaluate (QuantumSafeFunction_init g) (VInt 1) s2 = (Ok (VInt 0), s3) ∧
    QuantumLoop_init 3 (QuantumSafeFunction_init g) = Ok loop ∧
    build_circuit loop s3 = (Ok qc, s4) ∧
    qc_data qc = replicate 3 (OpGate 0, [0; 1]%nat).
Proof. by eexists _, _, _, _, _, _, _. Qed.

(** A collision recorded through one wrap of the constant function is not
    seen through the other wrap. *)
Example two_wraps_do_not_share :
  ∃ g1 s1 g2 s2 s3 s4,
    reversible constant_zero empty_store = (Ok g1, s1) ∧
    reversible constant_zero s1 = (Ok g2, s2) ∧
    fn_call g1 (call1 (VInt 0)) s2 = (Ok (VInt 0), s3) ∧
    fn_call g2 (call1 (VInt 1)) s3 = (Ok (VInt 0), s4) ∧
    raises (fn_call g1 (call1 (VInt 1)) s4).
Proof.
  eexists _, _, _, _, _, _. do 4 (split; [reflexivity|]).
  by eexists _, _.
Qed.

(** * Further properties of the module *)

(** ** Runs of calls through one [reversible] closure *)

Lemma call_each_cons g x xs s :
  call_each g (x :: xs) s =
  match fn_call g (call1 x) s with
  | (Ok y, s1) =>
      match call_each g xs s1 with
      | (Ok ys, s2) => (Ok (y :: ys), s2)
      | (Raise e, s2) => (Raise e, s2)
      end
  | (Raise e, s1) => (Raise e, s1)
  end.
Proof. reflexivity. Qed.

Section Run.
Variable f : pyfunc.
Variable sem : value → value.
Variable l : nat.

Lemma ledger_holds_step seen x s :
  ledger_holds sem l seen s →
  injective_on sem seen →
  (∀ x', ledger_at l s !! sem x = Some x' → x' = x) →
  ledger_holds sem l (seen ++ [x])
    (set_ledger l (<[sem x := x]> (ledger_at l s)) s) ∧
  injective_on sem (seen ++ [x]).
Proof.
  intros Hinv Hinj Hfree. split.
  - intros y x0. rewrite ledger_at_set_eq.
    destruct (decide (sem x = y)) as [<-|Hy].
    + rewrite lookup_insert_eq. split.
      * intros [= <-]. split; [|done]. apply elem_of_app. right.
        apply list_elem_of_here.
      * intros [[Hin|Hin%list_elem_of_singleton]%elem_of_app Hsem].
        -- f_equal. symmetry. apply Hfree. by apply Hinv.
        -- by subst.
    + rewrite lookup_insert_ne by done. rewrite (Hinv y x0). split.
      * intros [Hin Hsem]. split; [|done]. apply elem_of_app. by left.
      * intros [[Hin|Hin%list_elem_of_singleton]%elem_of_app Hsem];
          [done|]. by subst.
  - intros a b [Ha|Ha%list_elem_of_singleton]%elem_of_app
               [Hb|Hb%list_elem_of_singleton]%elem_of_app Hsem.
    + by apply Hinj.
    + subst b. apply Hfree. apply Hinv. by split.
    + subst a. symmetry. apply Hfree. apply Hinv. by split.
    + by subst.
Qed.

(** A run either goes through, on inputs that [sem] keeps apart, or stops
    with [IrreversibleFunctionError], on inputs that [sem] identifies. *)
Lemma call_each_reversible xs : ∀ seen s,
  computes_on f sem xs →
  ledger_holds sem l seen s →
  injective_on sem seen →
  (injective_on sem (seen ++ xs) ∧
   ∃ s', call_each (reversible_closure f l) xs s = (Ok (sem <$> xs), s') ∧
         ledger_holds sem l (seen ++ xs) s' ∧ gates s' = gates s) ∨
  (¬ injective_on sem (seen ++ xs) ∧
   ∃ msg s', call_each (reversible_closure f l) xs s =
             (Raise (IrreversibleFunctionError msg), s')).
Proof.
  induction xs as [|x xs IH]; intros seen s Hf Hinv Hinj.
  - left. rewrite app_nil_r. split; [done|]. by exists s.
  - assert (Hfx : fn_call f (call1 x) s = (Ok (sem x), s))
      by (apply Hf, list_elem_of_here).
    assert (Hf' : computes_on f sem xs)
      by (intros x0 s0 Hin; by apply Hf, list_elem_of_further).
    rewrite call_each_cons. simpl.
    rewrite (reversible_wrapper_step _ _ _ _ _ _ Hfx).
    destruct (bool_decide _ && bool_decide _) eqn:Hc.
    + right. apply conflict_true in Hc as (x' & Hx' & Hne). split.
      * intros Hall. apply Hne. apply Hinv in Hx' as [Hin Hsem].
        apply Hall; [apply elem_of_app; by left| |done].
        apply elem_of_app. right. apply list_elem_of_here.
      * by eexists _, _.
    + pose proof (proj1 (conflict_false _ _ _) Hc) as Hfree. clear Hc.
      rename Hfree into Hc.
      destruct (ledger_holds_step seen x s Hinv Hinj Hc) as [Hinv' Hinj'].
      destruct (IH _ _ Hf' Hinv' Hinj') as [(Hall & s' & Hrun & Hfin & Hg)
                                           |(Hnot & msg & s' & Hrun)].
      * left. rewrite <- app_assoc in Hall, Hfin. simpl in Hall, Hfin.
        split; [done|]. exists s'. by rewrite Hrun.
      * right. rewrite <- app_assoc in Hnot. simpl in Hnot.
        split; [done|]. exists msg, s'. by rewrite Hrun.
Qed.
End Run.

Lemma ledger_holds_empty sem l s :
  ledger_at l s = ∅ → ledger_holds sem l [] s.
Proof.
  intros Hempty y x. rewrite Hempty, lookup_empty. split; [done|].
  by intros [?%elem_of_nil _].
Qed.

(** X1.  Let [g] be a fresh [reversible] wrap of a function that computes
    [sem] on the inputs [xs].  If [sem] keeps the members of [xs] apart,
    the run of [g] over [xs] returns every output and the ledger ends up
    holding exactly the members of [xs], each under its output.  If [sem]
    sends two different members of [xs] to one output, the run stops with
    [IrreversibleFunctionError].  So the run goes through exactly when
    [sem] is injective on [xs]. *)
Theorem reversible_run_succeeds_iff_injective (f : pyfunc)
    (sem : value → value) (s0 : store) (g : pyfunc) (s1 : store)
    (xs : list value) :
  computes_on f sem xs →
  reversible f s0 = (Ok g, s1) →
  (injective_on sem xs →
   ∃ s', call_each g xs s1 = (Ok (sem <$> xs), s') ∧
         ∀ y x, ledger_at (fresh_ledger s0) s' !! y = Some x
                ↔ x ∈ xs ∧ sem x = y) ∧
  (¬ injective_on sem xs →
   ∃ msg s', call_each g xs s1 =
             (Raise (IrreversibleFunctionError msg), s')) ∧
  ((∃ ys s', call_each g xs s1 = (Ok ys, s')) ↔ injective_on sem xs).
Proof.
  intros Hf. rewrite reversible_eq. intros [= <- <-].
  destruct (call_each_reversible f sem (fresh_ledger s0) xs []
              (set_ledger (fresh_ledger s0) ∅ s0) Hf)
    as [(Hinj & s' & Hrun & Hfin & _)|(Hnot & msg & s' & Hrun)].
  { apply ledger_holds_empty, ledger_at_set_eq. }
  { by intros x x' ?%elem_of_nil. }
  - simpl in Hinj, Hfin. split; [|split].
    + intros _. by exists s'.
    + by intros [].
    + split; [done|]. intros _. by eexists _, _.
  - simpl in Hnot. split; [|split].
    + by intros ?.
    + intros _. by exists msg, s'.
    + split; [|done]. intros (ys & s'' & Hok). by rewrite Hrun in Hok.
Qed.

(** X2.  Whatever the arguments and whatever the outcome, a call through a
    [reversible] closure of a ledger-blind function keeps every entry its
    ledger had, and the only key whose entry can differ afterwards is the
    output the call returned, then recorded under the argument of the
    call. *)
Theorem reversible_ledger_only_grows (f : pyfunc) (l : nat) (a : call_args)
    (s : store) (r : result value) (s' : store) :
  ledger_blind f →
  fn_call (reversible_closure f l) a s = (r, s') →
  (∀ y x, ledger_at l s !! y = Some x → ledger_at l s' !! y = Some x) ∧
  (∀ y, ledger_at l s' !! y ≠ ledger_at l s !! y →
        r = Ok y ∧ ∃ x, bind_x a = Ok x ∧ ledger_at l s' !! y = Some x).
Proof.
  intros Hblind. simpl. unfold reversible_wrapper, mbind, M_bind, lift.
  destruct (bind_x a) as [x|e]; [|by intros [= <- <-]].
  destruct (fn_call f (call1 x) s) as [rf sf] eqn:Hf.
  destruct (Hblind _ _ _ _ Hf) as [Hsame _].
  assert (Hsf : ledger_at l sf = ledger_at l s)
    by (unfold ledger_at; by rewrite Hsame).
  destruct rf as [y|e]; [|intros [= <- <-]; by rewrite Hsf].
  unfold read_ledger. rewrite Hsf.
  destruct (bool_decide _ && bool_decide _) eqn:Hc.
  - intros [= <- <-]. by rewrite Hsf.
  - pose proof (proj1 (conflict_false _ _ _) Hc) as Hfree.
    unfold write_ledger, mret, M_ret. intros [= <- <-].
    rewrite ledger_at_set_eq. split.
    + intros y0 x0 Hy0. destruct (decide (y = y0)) as [<-|Hne].
      * rewrite lookup_insert_eq. f_equal. symmetry. by apply Hfree.
      * by rewrite lookup_insert_ne.
    + intros y0 Hdiff. destruct (decide (y = y0)) as [<-|Hne].
      * split; [done|]. exists x. by rewrite lookup_insert_eq.
      * by rewrite lookup_insert_ne in Hdiff.
Qed.

(** ** The decorators stacked *)

Lemma forbidden_not_in_wrapper_names k :
  k ∈ forbidden → k ∉ no_information_deletion_wrapper_co_names.
Proof.
  revert k. apply Forall_forall. apply (bool_decide_unpack _). by vm_compute.
Qed.

Lemma decorate_eq order raw s :
  Permutation order forbidden →
  decorate order raw s =
    (Ok (no_information_deletion (reversible_closure raw (fresh_ledger s))),
     set_ledger (fresh_ledger s) ∅ s).
Proof.
  intros Hperm. unfold decorate, mbind, M_bind. rewrite reversible_eq.
  unfold lift, no_control_flow_divergence.
  rewrite check_names_pass; [done|].
  intros k Hk. rewrite Hperm in Hk. by apply forbidden_not_in_wrapper_names.
Qed.

(** X3.  Stacked as in the module, the control-flow check looks at the name
    table of the [no_information_deletion] wrapper, not at that of the
    decorated function: the decoration of any function, whatever its own
    name table holds, returns the wrapper around the fresh [reversible]
    closure, under the name of the decorated function, and never raises. *)
Theorem decorate_never_rejects (order : list string) (raw : pyfunc)
    (s : store) :
  Permutation order forbidden →
  decorate order raw s =
    (Ok (no_information_deletion (reversible_closure raw (fresh_ledger s))),
     set_ledger (fresh_ledger s) ∅ s) ∧
  fn_name (no_information_deletion (reversible_closure raw (fresh_ledger s)))
    = fn_name raw.
Proof.
  intros Hperm. split; [by apply decorate_eq|done].
Qed.

(** X4.  Applying [no_information_deletion] to an already wrapped function
    changes nothing: same name, same name table, and every call has the
    same outcome and leaves the same store. *)
Theorem no_information_deletion_twice (f : pyfunc) (a : call_args)
    (s : store) :
  fn_call (no_information_deletion (no_information_deletion f)) a s =
    fn_call (no_information_deletion f) a s ∧
  fn_name (no_information_deletion (no_information_deletion f)) =
    fn_name (no_information_deletion f) ∧
  fn_co_names (no_information_deletion (no_information_deletion f)) =
    fn_co_names (no_information_deletion f).
Proof.
  split; [|done].
  destruct (fn_call f a s) as [[r|e] s'] eqn:Hf.
  - assert (Hin : fn_call (no_information_deletion f) a s =
                  if decide (r = VNone)
                  then (Raise (InformationDeletionError
                                 (deletion_message (fn_name f))), s')
                  else (Ok r, s'))
      by apply (no_information_deletion_wrapper_step _ _ _ _ _ Hf).
    destruct (decide (r = VNone)) as [->|Hr].
    + by rewrite (no_information_deletion_propagates _ _ _ _ _ Hin).
    + change (no_information_deletion_wrapper (no_information_deletion f) a s
              = fn_call (no_information_deletion f) a s).
      rewrite (no_information_deletion_wrapper_step _ _ _ _ _ Hin), Hin.
      by rewrite decide_False.
  - pose proof (no_information_deletion_propagates _ _ _ _ _ Hf) as Hin.
    by rewrite (no_information_deletion_propagates _ _ _ _ _ Hin).
Qed.

(** X5.  In the module's stacking the reversibility test runs first, so a
    [None] result is written to the ledger before
    [InformationDeletionError] is raised for it; and when the ledger
    already holds [None] for another input, the call reports
    [IrreversibleFunctionError] instead. *)
Theorem deleted_output_is_recorded (f : pyfunc) (l : nat) (x : value)
    (s s' : store) :
  fn_call f (call1 x) s = (Ok VNone, s') →
  ((∀ x', ledger_at l s' !! VNone = Some x' → x' = x) →
   fn_call (no_information_deletion (reversible_closure f l)) (call1 x) s =
     (Raise (InformationDeletionError (deletion_message (fn_name f))),
      set_ledger l (<[VNone := x]> (ledger_at l s')) s')) ∧
  (∀ x', ledger_at l s' !! VNone = Some x' → x' ≠ x →
   fn_call (no_information_deletion (reversible_closure f l)) (call1 x) s =
     (Raise (IrreversibleFunctionError
               (irreversible_message (fn_name f) x' x VNone)), s')).
Proof.
  intros Hf. split.
  - intros Hfree. simpl.
    unfold no_information_deletion_wrapper, mbind, M_bind. simpl.
    rewrite (reversible_wrapper_step _ _ _ _ _ _ Hf).
    pose proof (proj2 (conflict_false _ _ _) Hfree) as Hc. by rewrite Hc.
  - intros x' Hseen Hne. simpl.
    unfold no_information_deletion_wrapper, mbind, M_bind. simpl.
    rewrite (reversible_wrapper_step _ _ _ _ _ _ Hf).
    assert (Hc : ∃ x0, ledger_at l s' !! VNone = Some x0 ∧ x0 ≠ x) by eauto.
    apply conflict_true in Hc. rewrite Hc.
    by rewrite (lookup_total_correct _ _ _ Hseen).
Qed.

(** X6.  An exception of the decorated function itself passes through both
    wrappers unchanged, and nothing is written to the ledger. *)
Theorem raw_exception_passes_through (f : pyfunc) (l : nat) (x : value)
    (s : store) (e : exn) (s' : store) :
  fn_call f (call1 x) s = (Raise e, s') →
  fn_call (no_information_deletion (reversible_closure f l)) (call1 x) s =
    (Raise e, s') ∧
  fn_call (reversible_closure f l) (call1 x) s = (Raise e, s').
Proof.
  intros Hf. split.
  - apply no_information_deletion_propagates. simpl.
    by apply reversible_wrapper_raise.
  - simpl. by apply reversible_wrapper_raise.
Qed.

(** ** The visiting order of the forbidden set *)

Lemma check_names_Ok_iff order f :
  check_names order f = Ok f ↔ ∀ k, k ∈ order → k ∉ fn_co_names f.
Proof.
  split; [|apply check_names_pass].
  induction order as [|name rest IH]; simpl.
  - by intros _ k ?%elem_of_nil.
  - case_bool_decide as Hname; [done|].
    intros Hrest k [->|Hk]%elem_of_cons; [done|]. by apply IH.
Qed.

Lemma check_names_raise_first order f e :
  check_names order f = Raise e →
  ∃ pre k post,
    order = (pre ++ k :: post)%list ∧
    k ∈ fn_co_names f ∧
    (∀ k', k' ∈ pre → k' ∉ fn_co_names f) ∧
    e = ControlFlowDivergenceError (divergence_message (fn_name f) k).
Proof.
  induction order as [|name rest IH]; simpl; [done|].
  case_bool_decide as Hname.
  - intros [= <-]. exists [], name, rest.
    split; [done|]. split; [done|]. split; [|done].
    by intros k' ?%elem_of_nil.
  - intros (pre & k & post & -> & Hk & Hpre & ->)%IH.
    exists (name :: pre), k, post.
    split; [done|]. split; [done|]. split; [|done].
    intros k' [->|Hk']%elem_of_cons; [done|]. by apply Hpre.
Qed.

(** X7.  Whether [no_control_flow_divergence] accepts a function does not
    depend on the order in which the forbidden set is visited; which word
    the error names does: it is the first word, in visiting order, that is
    in the name table. *)
Theorem no_control_flow_divergence_order (order1 order2 : list string)
    (f : pyfunc) :
  Permutation order1 order2 →
  (no_control_flow_divergence order1 f = Ok f ↔
   no_control_flow_divergence order2 f = Ok f) ∧
  (∀ e, no_control_flow_divergence order1 f = Raise e →
        ∃ pre k post,
          order1 = (pre ++ k :: post)%list ∧
          k ∈ fn_co_names f ∧
          (∀ k', k' ∈ pre → k' ∉ fn_co_names f) ∧
          e = ControlFlowDivergenceError
                ("Function " +:+ fn_name f +:+
                 " contains forbidden control flow: " +:+ k)).
Proof.
  intros Hperm. unfold no_control_flow_divergence. split.
  - rewrite !check_names_Ok_iff.
    split; intros Hall k Hk; apply Hall; [by rewrite Hperm|by rewrite <- Hperm].
  - intros e. apply check_names_raise_first.
Qed.

(** ** The exception classes *)

(** X8.  When the decorated function itself returns, whatever a call
    through the two wrappers raises is a [QuantumRuleViolation]; so is
    whatever the control-flow check raises.  What [QuantumLoop] raises is
    not: a handler for [QuantumRuleViolation] does not catch it. *)
Theorem errors_by_class :
  (∀ f l x s v sf e s',
     fn_call f (call1 x) s = (Ok v, sf) →
     fn_call (no_information_deletion (reversible_closure f l)) (call1 x) s
       = (Raise e, s') →
     is_QuantumRuleViolation e = true) ∧
  (∀ order f e,
     no_control_flow_divergence order f = Raise e →
     is_QuantumRuleViolation e = true) ∧
  (∀ n b e,
     QuantumLoop_init n b = Raise e → is_QuantumRuleViolation e = false).
Proof.
  split; [|split].
  - intros f l x s v sf e s' Hf. simpl.
    unfold no_information_deletion_wrapper, mbind, M_bind. simpl.
    rewrite (reversible_wrapper_step _ _ _ _ _ _ Hf).
    destruct (bool_decide _ && bool_decide _).
    + by intros [= <- _].
    + destruct (decide (v = VNone)); [by intros [= <- _]|done].
  - intros order f e (pre & k & post & _ & _ & _ & ->)%check_names_raise_first.
    done.
  - intros n b e. unfold QuantumLoop_init.
    destruct (decide (n ≤ 0)); [by intros [= <-]|done].
Qed.

(** ** Gates and circuits *)

Lemma build_circuit_eq (loop : QuantumLoop) (s : store) :
  build_circuit loop s =
  (Ok {| qc_num_qubits := 2;
         qc_name := None;
         qc_data := replicate (Z.to_nat (iterations loop))
                      (OpGate (length (gates s)), [0; 1]%nat) |},
   {| ledgers := ledgers s;
      gates := gates s ++ [{| gate_name := Some "U_f";
                              gate_num_qubits := 2;
                              gate_definition := [(OpCX, [0; 1]%nat)] |}] |}).
Proof.
  unfold build_circuit, mbind, M_bind. rewrite to_gate_eq. simpl.
  erewrite append_times_eq;
    [reflexivity
    |simpl; rewrite lookup_app_r by lia; by rewrite Nat.sub_diag
    |done|done].
Qed.

(** X9.  [build_circuit] never raises and never calls the function of the
    body: for any loop object, whatever its body holds and whatever its
    [iterations] has become, it creates one gate object, changes no ledger
    and returns a two-qubit circuit of [max 0 iterations] placements of
    that gate; with [iterations] zero or negative the circuit is empty and
    the gate object is created all the same. *)
Theorem build_circuit_never_raises (loop : QuantumLoop) (s : store) :
  ∃ qc s',
    build_circuit loop s = (Ok qc, s') ∧
    qc_num_qubits qc = 2%nat ∧
    qc_data qc = replicate (Z.to_nat (iterations loop))
                   (OpGate (length (gates s)), [0; 1]%nat) ∧
    Z.of_nat (length (qc_data qc)) = Z.max 0 (iterations loop) ∧
    (iterations loop ≤ 0 → qc_data qc = []) ∧
    length (gates s') = S (length (gates s)) ∧
    ledgers s' = ledgers s.
Proof.
  eexists _, _. split; [apply build_circuit_eq|]. simpl.
  split; [done|]. split; [done|]. split; [rewrite length_replicate; lia|].
  split.
  - intros Hle. by replace (Z.to_nat (iterations loop)) with 0%nat by lia.
  - split; [|done]. rewrite length_app. simpl. lia.
Qed.

(** X10.  Every call of [to_gate] makes a new gate object: two calls, on
    any two wrappers, return different references to gates of the same
    content, the two-qubit unit of one CNOT under the given name, and
    neither call changes a ledger or an older gate. *)
Theorem to_gate_twice (b b' : QuantumSafeFunction) (name : string)
    (s : store) :
  ∃ r1 s1 r2 s2 u,
    to_gate b name s = (Ok r1, s1) ∧
    to_gate b' name s1 = (Ok r2, s2) ∧
    r1 ≠ r2 ∧
    gates s2 !! r1 = Some u ∧
    gates s2 !! r2 = Some u ∧
    u = {| gate_name := Some name;
           gate_num_qubits := 2;
           gate_definition := [(OpCX, [0; 1]%nat)] |} ∧
    (∀ r, (r < length (gates s))%nat → gates s2 !! r = gates s !! r) ∧
    ledgers s2 = ledgers s.
Proof.
  eexists _, _, _, _, _.
  split; [apply to_gate_eq|]. split; [apply to_gate_eq|]. simpl.
  rewrite length_app. simpl.
  split; [lia|]. split.
  { rewrite lookup_app_l by (rewrite length_app; simpl; lia).
    rewrite lookup_app_r by lia. by rewrite Nat.sub_diag. }
  split.
  { rewrite lookup_app_r by (rewrite length_app; simpl; lia).
    rewrite length_app. simpl.
    by replace (length (gates s) + 1 - (length (gates s) + 1))%nat
      with 0%nat by lia. }
  split; [done|]. split; [|done].
  intros r Hr. rewrite lookup_app_l by (rewrite length_app; simpl; lia).
  by rewrite lookup_app_l by lia.
Qed.

(** ** The module's function and [main] *)

Lemma lxor_1_inj (n m : Z) : Z.lxor n 1 = Z.lxor m 1 → n = m.
Proof.
  intros H. apply (f_equal (λ z, Z.lxor z 1)) in H.
  by rewrite !Z.lxor_assoc, Z.lxor_nilpotent, !Z.lxor_0_r in H.
Qed.

(** A run that goes through a function with no [None] among its results
    goes through its [no_information_deletion] wrapper just the same. *)
Lemma call_each_no_information_deletion h xs : ∀ ys s s',
  call_each h xs s = (Ok ys, s') →
  VNone ∉ ys →
  call_each (no_information_deletion h) xs s = (Ok ys, s').
Proof.
  induction xs as [|x xs IH]; intros ys s s'; [done|].
  rewrite !call_each_cons.
  destruct (fn_call h (call1 x) s) as [[y|e] s1] eqn:Hh; [|done].
  destruct (call_each h xs s1) as [[ys'|e] s2] eqn:Hrest; [|done].
  intros [= <- <-] Hnone.
  apply not_elem_of_cons in Hnone as [Hy Hys].
  change (fn_call (no_information_deletion h) (call1 x) s)
    with (no_information_deletion_wrapper h (call1 x) s).
  rewrite (no_information_deletion_wrapper_step _ _ _ _ _ Hh).
  rewrite decide_False by done.
  by rewrite (IH _ _ _ Hrest Hys).
Qed.

(** X11.  The module's [reversible_increment], decorated, can be called on
    any integers in any order, repeats included, without ever raising: the
    results are the inputs with their lowest bit flipped, and the ledger
    ends up holding every input under its result. *)
Theorem reversible_increment_accepts_all_integers (order : list string)
    (s : store) (g : pyfunc) (s1 : store) (ns : list Z) :
  Permutation order forbidden →
  reversible_increment order s = (Ok g, s1) →
  ∃ s',
    call_each g (VInt <$> ns) s1 =
      (Ok ((λ n, VInt (Z.lxor n 1)) <$> ns), s') ∧
    ∀ n, n ∈ ns →
         ledger_at (fresh_ledger s) s' !! VInt (Z.lxor n 1) = Some (VInt n).
Proof.
  intros Hperm. unfold reversible_increment.
  rewrite (decorate_eq _ _ _ Hperm). intros [= <- <-].
  set (sem := λ v, match v with
                   | VInt n => VInt (Z.lxor n 1)
                   | _ => VNone
                   end).
  assert (Hcomp : computes_on reversible_increment_raw sem (VInt <$> ns)).
  { intros x s0 (n & -> & _)%list_elem_of_fmap. reflexivity. }
  assert (Hinj : injective_on sem (VInt <$> ns)).
  { intros x x' (n & -> & _)%list_elem_of_fmap (m & -> & _)%list_elem_of_fmap.
    simpl. intros [= Hnm]. f_equal. by apply lxor_1_inj. }
  destruct (call_each_reversible reversible_increment_raw sem
              (fresh_ledger s) (VInt <$> ns) []
              (set_ledger (fresh_ledger s) ∅ s) Hcomp)
    as [(_ & s' & Hrun & Hfin & _)|(Hnot & _)].
  { apply ledger_holds_empty, ledger_at_set_eq. }
  { by intros x x' ?%elem_of_nil. }
  - exists s'. rewrite <- list_fmap_compose in Hrun. split.
    + apply call_each_no_information_deletion; [exact Hrun|].
      by intros (n & [=] & _)%list_elem_of_fmap.
    + intros n Hn. apply Hfin. split; [|done]. simpl.
      by apply list_elem_of_fmap_2.
  - by destruct Hnot.
Qed.

(** X12.  [main] never calls the function it wraps: given any function
    object it returns a circuit of three placements of one new gate and
    changes no ledger.  With the module's own [reversible_increment] the
    ledger made at decoration is therefore still empty after [main]. *)
Theorem main_builds_without_calling (order : list string) (s : store) :
  Permutation order forbidden →
  (∀ h t, ∃ qc t',
     main h t = (Ok qc, t') ∧
     qc_data qc = replicate 3 (OpGate (length (gates t)), [0; 1]%nat) ∧
     ledgers t' = ledgers t ∧
     length (gates t') = S (length (gates t))) ∧
  ∃ g s1 qc s2,
    reversible_increment order s = (Ok g, s1) ∧
    fn_name g = "reversible_increment" ∧
    main g s1 = (Ok qc, s2) ∧
    ledger_at (fresh_ledger s) s2 = ∅.
Proof.
  intros Hperm.
  assert (Hmain : ∀ h t, main h t =
            build_circuit
              {| iterations := 3; body := QuantumSafeFunction_init h |} t)
    by done.
  split.
  - intros h t. eexists _, _. rewrite Hmain, build_circuit_eq. simpl.
    split; [done|]. split; [done|]. split; [done|].
    simpl. rewrite length_app. simpl. lia.
  - eexists _, _, _, _. unfold reversible_increment.
    rewrite (decorate_eq _ _ _ Hperm). split; [done|]. split; [done|].
    rewrite Hmain, build_circuit_eq. split; [done|].
    unfold ledger_at. simpl. by rewrite lookup_insert_eq.
Qed.

(** ** The further properties at concrete inputs *)

(** The constant function run over 0 and 1. *)
Lemma reversible_run_succeeds_iff_injective_witness :
  ∃ msg s',
    call_each (reversible_closure constant_zero (fresh_ledger empty_store))
      [VInt 0; VInt 1] (set_ledger (fresh_ledger empty_store) ∅ empty_store)
    = (Raise (IrreversibleFunctionError msg), s').
Proof.
  apply (reversible_run_succeeds_iff_injective constant_zero
           (λ _, VInt 0) empty_store _ _ [VInt 0; VInt 1]).
  - intros x s _. reflexivity.
  - reflexivity.
  - intros Hinj.
    assert (H01 : VInt 0 = VInt 1); [|discriminate H01].
    apply Hinj; [apply list_elem_of_here| |reflexivity].
    apply list_elem_of_further, list_elem_of_here.
Defined.

(** The constant function called again on the input its ledger holds. *)
Lemma reversible_ledger_only_grows_witness :
  ledger_at 0
    (set_ledger 0
       (<[VInt 0 := VInt 5]>
          (ledger_at 0 (set_ledger 0 {[VInt 0 := VInt 5]} empty_store)))
       (set_ledger 0 {[VInt 0 := VInt 5]} empty_store))
    !! VInt 0 = Some (VInt 5).
Proof.
  apply (reversible_ledger_only_grows constant_zero 0 (call1 (VInt 5))
           (set_ledger 0 {[VInt 0 := VInt 5]} empty_store) (Ok (VInt 0))).
  - apply def_unary_ledger_blind.
  - vm_compute. reflexivity.
  - vm_compute. reflexivity.
Defined.

(** A function whose own name table holds forbidden words passes the
    module's decoration. *)
Lemma decorate_never_rejects_witness :
  decorate forbidden keyword_named empty_store =
    (Ok (no_information_deletion
           (reversible_closure keyword_named (fresh_ledger empty_store))),
     set_ledger (fresh_ledger empty_store) ∅ empty_store).
Proof.
  apply (decorate_never_rejects forbidden keyword_named empty_store).
  apply Permutation_refl.
Defined.

(** [discard], decorated, called on 1 with an empty ledger. *)
Lemma deleted_output_is_recorded_witness :
  fn_call (no_information_deletion (reversible_closure discard 0))
    (call1 (VInt 1)) empty_store =
  (Raise (InformationDeletionError (deletion_message (fn_name discard))),
   set_ledger 0 (<[VNone := VInt 1]> (ledger_at 0 empty_store)) empty_store).
Proof.
  apply (deleted_output_is_recorded discard 0 (VInt 1) empty_store
           empty_store eq_refl).
  intros x' Hx'. vm_compute in Hx'. discriminate Hx'.
Defined.

(** [reversible_increment] on a string: [x ^ 1] raises [TypeError]. *)
Lemma raw_exception_passes_through_witness :
  fn_call (no_information_deletion
             (reversible_closure reversible_increment_raw 0))
    (call1 (VStr "a")) empty_store = (Raise TypeError, empty_store).
Proof.
  apply (raw_exception_passes_through reversible_increment_raw 0
           (VStr "a") empty_store TypeError empty_store).
  reflexivity.
Defined.

(** The forbidden set visited forwards and backwards. *)
Lemma no_control_flow_divergence_order_witness :
  no_control_flow_divergence forbidden keyword_named = Ok keyword_named ↔
  no_control_flow_divergence (rev forbidden) keyword_named = Ok keyword_named.
Proof.
  apply (no_control_flow_divergence_order forbidden (rev forbidden)
           keyword_named).
  apply Permutation_rev.
Defined.

Lemma errors_by_class_witness :
  is_QuantumRuleViolation
    (InformationDeletionError (deletion_message (fn_name discard))) = true.
Proof.
  apply (proj1 errors_by_class discard 0%nat (VInt 1) empty_store VNone
           empty_store _
           (set_ledger 0 (<[VNone := VInt 1]> (ledger_at 0 empty_store))
              empty_store)).
  - reflexivity.
  - reflexivity.
Defined.

Lemma reversible_increment_accepts_all_integers_witness :
  ∃ s',
    call_each
      (no_information_deletion
         (reversible_closure reversible_increment_raw
            (fresh_ledger empty_store)))
      (VInt <$> [0; 1; -3; 0])
      (set_ledger (fresh_ledger empty_store) ∅ empty_store) =
      (Ok ((λ n, VInt (Z.lxor n 1)) <$> [0; 1; -3; 0]), s') ∧
    ∀ n, n ∈ [0; 1; -3; 0] →
         ledger_at (fresh_ledger empty_store) s' !! VInt (Z.lxor n 1)
         = Some (VInt n).
Proof.
  apply (reversible_increment_accepts_all_integers forbidden empty_store).
  - apply Permutation_refl.
  - reflexivity.
Defined.

Lemma main_builds_without_calling_witness :
  ∃ g s1 qc s2,
    reversible_increment forbidden empty_store = (Ok g, s1) ∧
    fn_name g = "reversible_increment" ∧
    main g s1 = (Ok qc, s2) ∧
    ledger_at (fresh_ledger empty_store) s2 = ∅.
Proof.
  apply (main_builds_without_calling forbidden empty_store).
  apply Permutation_refl.
Defined.
